(** * SignalCaptureWindow: a shallow embedding of [capture_window.py]

    The engine buffers timestamped RSSI readings, evicts the stale ones,
    tests the validity of the window and, when it is valid, reduces the
    buffer to a fingerprint.

    Modelling choices.
    - Timestamps and window sizes are Python floats: binary64 numbers,
      modelled by Rocq's primitive floats with their own subtraction and
      comparisons ([t - head > max] is [max <? t - head], and
      [t - head >= min] is [min <=? t - head]).
    - RSSI values, the entry thresholds and the sentinel are Python ints: [Z].
    - numpy, scipy and [math.floor] compute on int64 and binary64 numbers.
      The integer filters are modelled where these computations are exact
      (the absolute values of the sample add up to less than [2^53]); the
      [tss] filter needs the binary64 power function, which has no
      counterpart here.  Outside these ranges a call ends in [Unmodelled]:
      the model says nothing about what the code returns or raises there,
      and the state paired with [Unmodelled] is the one reached when the
      computation left the model.
    - A Python [dict] is an association list in insertion order whose keys
      are updated in place ([Dict.set]).
    - A Python exception is the [Raise] case of [result]; the object state
      reached when the exception leaves the method is kept next to it. *)

From Stdlib Require Import List String ZArith QArith Qround Lia Bool Floats.
Import ListNotations.

Local Open Scope string_scope.
Local Open Scope list_scope.
#[local] Set Warnings "-inexact-float".

(** ** Python values, exceptions and dictionaries *)

(** The exceptions that the model lets leave the methods of the class. *)
Inductive exn : Type :=
| InvalidFilteringType          (* Exception('Invalid filtering type') *)
| ValueError                    (* numpy / math.floor on an empty sample *)
| KeyError (k : string).        (* reading[head] on a missing key *)

(** The outcome of a computation: a value, an exception, or [Unmodelled]
    when the computation leaves the part of Python that is embedded. *)
Inductive result (A : Type) : Type :=
| Ok (a : A)
| Raise (e : exn)
| Unmodelled.
Arguments Ok {A} a.
Arguments Raise {A} e.
Arguments Unmodelled {A}.

Definition bind {A B : Type} (r : result A) (k : A -> result B) : result B :=
  match r with
  | Ok a => k a
  | Raise e => Raise e
  | Unmodelled => Unmodelled
  end.

Notation "x <- r ;; k" := (bind r (fun x => k))
  (at level 61, r at next level, right associativity).

(** The values stored in reading dictionaries and in fingerprints. *)
Inductive value : Type :=
| VInt (z : Z)        (* int: RSSI, floored reductions, the sentinel *)
| VNum (f : float)    (* float: timestamps *)
| VStr (s : string).  (* str *)

Module Dict.

Definition t : Type := list (string * value).

Definition empty : t := [].

(** [d[k]] as a lookup; [None] stands for a missing key. *)
Fixpoint get (k : string) (d : t) : option value :=
  match d with
  | [] => None
  | (k', v) :: rest => if String.eqb k' k then Some v else get k rest
  end.

(** [d[k] = v]: an existing key keeps its position, a new one goes last. *)
Fixpoint set (k : string) (v : value) (d : t) : t :=
  match d with
  | [] => [(k, v)]
  | (k', v') :: rest =>
      if String.eqb k' k then (k', v) :: rest else (k', v') :: set k v rest
  end.

Definition keys (d : t) : list string := map fst d.

(** [{**a, **b}]: the entries of [a], then those of [b] written on top. *)
Definition merge (a b : t) : t :=
  fold_left (fun d kv => set (fst kv) (snd kv) d) b a.

(** [d[k]] as an expression: a missing key raises [KeyError]. *)
Definition item (d : t) (k : string) : result value :=
  match get k d with
  | Some v => Ok v
  | None => Raise (KeyError k)
  end.

End Dict.

(** ** Readings and the engine object *)

(** A row of the buffer: [{'timestamp': .., 'mac_sensor': .., 'rssi': ..}]. *)
Record reading : Type := mkReading {
  timestamp : float;
  mac_sensor : string;
  rssi : Z
}.

(** The attributes of a [SignalCaptureWindow] object. *)
Record SignalCaptureWindow : Type := mkWindow {
  _sensor_mac_list : list string;
  _min_window_size : float;
  _max_window_size : float;
  _min_entries_per_sensor : Z;
  _min_valid_sensors : Z;
  _filter_method : string;
  _invalid_sensor_value : Z;
  _readings_stack : list reading
}.

Definition default_invalid_sensor_value : Z := 100.

(** [__init__]: the parameters are stored as they come, nothing is checked,
    and the buffer starts empty. *)
Definition init (sensor_mac_list : list string)
    (min_window_size max_window_size : float)
    (min_entries_per_sensor min_valid_sensors : Z)
    (filter_method : string) (invalid_sensor_value : Z)
  : SignalCaptureWindow :=
  mkWindow sensor_mac_list min_window_size max_window_size
           min_entries_per_sensor min_valid_sensors filter_method
           invalid_sensor_value [].

(** [self._readings_stack = s]. *)
Definition set_stack (self : SignalCaptureWindow) (s : list reading)
  : SignalCaptureWindow :=
  mkWindow (_sensor_mac_list self) (_min_window_size self)
           (_max_window_size self) (_min_entries_per_sensor self)
           (_min_valid_sensors self) (_filter_method self)
           (_invalid_sensor_value self) s.

(** Two objects built from the same constructor arguments. *)
Definition same_config (a b : SignalCaptureWindow) : Prop :=
  set_stack a [] = set_stack b [].

(** ** The numeric library calls *)

Module Filters.

(** The float that [math.floor] receives: a number or [nan]. *)
Inductive npfloat : Type :=
| NaN
| Fin (q : Q).

(** [math.floor]: the floor as an int; [nan] raises [ValueError]. *)
Definition math_floor (x : npfloat) : result Z :=
  match x with
  | NaN => Raise ValueError
  | Fin q => Ok (Qfloor q)
  end.

Definition sum (l : list Z) : Z := fold_right Z.add 0%Z l.

(** The samples on which int64 and binary64 arithmetic is exact: the
    absolute values add up to less than [2^53].  Every value and every
    partial sum is then a binary64 number, and the rounding of a quotient
    by the length does not reach the next integer. *)
Definition representable (l : list Z) : bool :=
  (sum (map Z.abs l) <? 2 ^ 53)%Z.

(** [np.mean]: [nan] on an empty sample. *)
Definition np_mean (l : list Z) : result npfloat :=
  match l with
  | [] => Ok NaN
  | _ =>
      if representable l
      then Ok (Fin (inject_Z (sum l) / inject_Z (Z.of_nat (List.length l))))
      else Unmodelled
  end.

Fixpoint insert (x : Z) (l : list Z) : list Z :=
  match l with
  | [] => [x]
  | y :: rest => if (x <=? y)%Z then x :: l else y :: insert x rest
  end.

Definition sort (l : list Z) : list Z := fold_right insert [] l.

(** [np.median]: the middle element of the sorted sample, or the mean of
    the two middle ones; [nan] on an empty sample. *)
Definition np_median (l : list Z) : result npfloat :=
  match l with
  | [] => Ok NaN
  | _ =>
      if representable l then
        let s := sort l in
        let n := List.length s in
        if Nat.odd n then Ok (Fin (inject_Z (nth (Nat.div2 n) s 0%Z)))
        else Ok (Fin ((inject_Z (nth (Nat.div2 n - 1) s 0%Z)
                       + inject_Z (nth (Nat.div2 n) s 0%Z)) / inject_Z 2))
      else Unmodelled
  end.

Definition count (x : Z) (l : list Z) : nat :=
  List.length (filter (Z.eqb x) l).

(** The first value of [candidates] whose count in [l] is the largest. *)
Fixpoint argmax_count (l : list Z) (best : Z) (candidates : list Z) : Z :=
  match candidates with
  | [] => best
  | c :: rest =>
      if (count best l <? count c l)%nat then argmax_count l c rest
      else argmax_count l best rest
  end.

(** [stats.mode(..)[0]]: the most frequent value, the smallest one on a
    tie; on an empty sample the result is [nan]. *)
Definition stats_mode (l : list Z) : result npfloat :=
  match sort l with
  | [] => Ok NaN
  | x :: rest =>
      if representable l then Ok (Fin (inject_Z (argmax_count l x rest)))
      else Unmodelled
  end.

(** [np.max] and [np.min] raise [ValueError] on an empty sample; the
    floor of a representable int is the int. *)
Definition np_max (l : list Z) : result Z :=
  match l with
  | [] => Raise ValueError
  | x :: rest =>
      if representable l then Ok (fold_left Z.max rest x) else Unmodelled
  end.

Definition np_min (l : list Z) : result Z :=
  match l with
  | [] => Raise ValueError
  | x :: rest =>
      if representable l then Ok (fold_left Z.min rest x) else Unmodelled
  end.

(** [np.sum(list(map(lambda x: 10**(x['rssi']/10), ..)))]: [0.0] on an empty
    sample.  On any other sample the value is built from binary64 powers
    (which raise [OverflowError] when they overflow) and a binary64
    summation; neither is embedded. *)
Definition tss (l : list Z) : result float :=
  match l with
  | [] => Ok 0%float
  | _ => Unmodelled
  end.

End Filters.

(** ** The methods of [SignalCaptureWindow] *)

(** [list(filter(lambda x: x['mac_sensor'] == sensor_mac, readings_stack))] *)
Definition sensor_readings (sensor_mac : string) (readings_stack : list reading)
  : list reading :=
  filter (fun x => String.eqb (mac_sensor x) sensor_mac) readings_stack.

(** [len(sensor_readings) >= self._min_entries_per_sensor] *)
Definition enough_entries (self : SignalCaptureWindow) (sensor_mac : string)
    (readings_stack : list reading) : bool :=
  (_min_entries_per_sensor self
   <=? Z.of_nat (List.length (sensor_readings sensor_mac readings_stack)))%Z.

(** The chain of [if]/[elif] on [self._filter_method], applied to the
    readings of one valid sensor. *)
Definition apply_filter (filter_method : string) (sensor_readings : list reading)
  : result value :=
  let values := map rssi sensor_readings in
  if String.eqb filter_method "mean" then
    x <- Filters.np_mean values ;; v <- Filters.math_floor x ;; Ok (VInt v)
  else if String.eqb filter_method "median" then
    x <- Filters.np_median values ;; v <- Filters.math_floor x ;; Ok (VInt v)
  else if String.eqb filter_method "mode" then
    x <- Filters.stats_mode values ;; v <- Filters.math_floor x ;; Ok (VInt v)
  else if String.eqb filter_method "max" then
    v <- Filters.np_max values ;; Ok (VInt v)
  else if String.eqb filter_method "min" then
    v <- Filters.np_min values ;; Ok (VInt v)
  else if String.eqb filter_method "tss" then
    x <- Filters.tss values ;; Ok (VNum x)
  else Raise InvalidFilteringType.

(** The body of the loop of [compose_fingerprint_data] for one sensor: the
    value assigned to [fingerprint[sensor_mac]]. *)
Definition sensor_value (self : SignalCaptureWindow) (readings_stack : list reading)
    (sensor_mac : string) : result value :=
  if enough_entries self sensor_mac readings_stack then
    apply_filter (_filter_method self) (sensor_readings sensor_mac readings_stack)
  else Ok (VInt (_invalid_sensor_value self)).

(** The loop of [compose_fingerprint_data] over the sensors still to visit. *)
Fixpoint compose_loop (self : SignalCaptureWindow) (readings_stack : list reading)
    (sensors : list string) (fingerprint : Dict.t) : result Dict.t :=
  match sensors with
  | [] => Ok fingerprint
  | sensor_mac :: rest =>
      v <- sensor_value self readings_stack sensor_mac ;;
      compose_loop self readings_stack rest (Dict.set sensor_mac v fingerprint)
  end.

Definition compose_fingerprint_data (self : SignalCaptureWindow)
    (readings_stack : list reading) : result Dict.t :=
  compose_loop self readings_stack (_sensor_mac_list self) Dict.empty.

(** The loop of [check_valid_window] that counts the valid sensors. *)
Definition count_valid_sensors (self : SignalCaptureWindow)
    (readings_stack : list reading) : Z :=
  fold_left
    (fun valid_sensors sensor_mac =>
       if enough_entries self sensor_mac readings_stack
       then (valid_sensors + 1)%Z else valid_sensors)
    (_sensor_mac_list self) 0%Z.

Definition check_valid_window (self : SignalCaptureWindow) (timestamp_ : float)
  : bool :=
  match _readings_stack self with
  | [] => false
  | head :: _ =>
      if negb (_min_window_size self <=? timestamp_ - timestamp head)%float
      then false
      else if (count_valid_sensors self (_readings_stack self)
               <? _min_valid_sensors self)%Z
      then false
      else true
  end.

(** The [while] loop of [process_reading]: pop the head as long as it is
    older than [max_window_size] with respect to [timestamp_]. *)
Fixpoint remove_old_readings (max_window_size timestamp_ : float)
    (readings_stack : list reading) : list reading :=
  match readings_stack with
  | [] => []
  | head :: rest =>
      if (max_window_size <? timestamp_ - timestamp head)%float
      then remove_old_readings max_window_size timestamp_ rest
      else readings_stack
  end.

(** The buffer of [process_reading] when the validity is tested. *)
Definition window_after_ingest (self : SignalCaptureWindow) (timestamp_ : float)
    (mac_sensor_ : string) (rssi_ : Z) : list reading :=
  remove_old_readings (_max_window_size self) timestamp_
    (_readings_stack self ++ [mkReading timestamp_ mac_sensor_ rssi_]).

(** [process_reading]: the object after the call, and what the call
    returns ([None], a fingerprint) or raises. *)
Definition process_reading (self : SignalCaptureWindow) (timestamp_ : float)
    (mac_sensor_ : string) (rssi_ : Z) (aggregate_data : option Dict.t)
  : SignalCaptureWindow * result (option Dict.t) :=
  let self1 :=
    set_stack self (window_after_ingest self timestamp_ mac_sensor_ rssi_) in
  if negb (check_valid_window self1 timestamp_) then (self1, Ok None)
  else
    let readings_stack := _readings_stack self1 in
    let self2 := set_stack self1 [] in
    match compose_fingerprint_data self2 readings_stack with
    | Raise e => (self2, Raise e)
    | Unmodelled => (self2, Unmodelled)
    | Ok fingerprint =>
        let fingerprint := Dict.set "timestamp" (VNum timestamp_) fingerprint in
        match aggregate_data with
        | Some extra => (self2, Ok (Some (Dict.merge extra fingerprint)))
        | None => (self2, Ok (Some fingerprint))
        end
    end.

(** *** The batch driver *)




(** [{head: reading[head] for head in aggregate_data_heads}] *)
Fixpoint aggregate_of (reading_ : Dict.t) (heads : list string) (acc : Dict.t)
  : result Dict.t :=
  match heads with
  | [] => Ok acc
  | head :: rest =>
      v <- Dict.item reading_ head ;;
      aggregate_of reading_ rest (Dict.set head v acc)
  end.




(** A run of [process_reading] calls on one object; a caller that catches
    an exception goes on with the object as the failed call left it. *)
Record call : Type := mkCall {
  call_timestamp : float;
  call_mac_sensor : string;
  call_rssi : Z;
  call_aggregate_data : option Dict.t
}.

Definition step (self : SignalCaptureWindow) (c : call)
  : SignalCaptureWindow * result (option Dict.t) :=
  process_reading self (call_timestamp c) (call_mac_sensor c) (call_rssi c)
                  (call_aggregate_data c).

Definition run (self : SignalCaptureWindow) (calls : list call)
  : SignalCaptureWindow :=
  fold_left (fun s c => fst (step s c)) calls self.

(** Timestamps that never decrease along a list, for Python's [<=]. *)
Fixpoint non_decreasing (l : list float) : Prop :=
  match l with
  | [] => True
  | x :: rest =>
      Forall (fun y => (x <=? y)%float = true) rest /\ non_decreasing rest
  end.

(** The filter methods that [compose_fingerprint_data] knows. *)
Definition known_filter (filter_method : string) : bool :=
  existsb (String.eqb filter_method)
          ["mean"; "median"; "mode"; "max"; "min"; "tss"].

(** The row that [process_reading] appends for a call. *)
Definition reading_of_call (c : call) : reading :=
  mkReading (call_timestamp c) (call_mac_sensor c) (call_rssi c).


(** The filter methods whose result goes through [math.floor]. *)
Definition integer_filter (filter_method : string) : bool :=
  existsb (String.eqb filter_method) ["mean"; "median"; "mode"; "max"; "min"].

(** A sample whose values all lie between [lo] and [hi]. *)
Definition within (lo hi : Z) (l : list Z) : Prop :=
  Forall (fun x => (lo <= x <= hi)%Z) l.

(** The fingerprint that holds the sentinel for every sensor of a list. *)
Definition all_invalid (self : SignalCaptureWindow) (sensors : list string)
    (fingerprint : Dict.t) : Dict.t :=
  fold_left (fun d s => Dict.set s (VInt (_invalid_sensor_value self)) d)
            sensors fingerprint.

(** A binary64 number that is zero, subnormal or normal. *)
Definition SFfinite (s : spec_float) : Prop :=
  match s with
  | S754_zero _ | S754_finite _ _ _ => True
  | _ => False
  end.

(** ** The example of the specification *)

Definition example_engine : SignalCaptureWindow :=
  init ["A"; "B"] 1 10 2 2 "mean" default_invalid_sensor_value.

(** C2. With sensors [A; B], two entries per sensor, two valid sensors, a
    window of 1 to 10 seconds, the mean filter and the sentinel 100, the
    readings (0, A, -40), (0.2, B, -50), (0.5, A, -44) return nothing and
    (1.0, B, -52) returns [{A: -42, B: -51, timestamp: 1.0}], each sensor
    value being the floor of the mean of its readings; the buffer is empty
    afterwards. *)
Theorem reduction_example :
  let e0 := example_engine in
  let '(e1, r1) := process_reading e0 0 "A" (-40) None in
  let '(e2, r2) := process_reading e1 0.2 "B" (-50) None in
  let '(e3, r3) := process_reading e2 0.5 "A" (-44) None in
  let '(e4, r4) := process_reading e3 1 "B" (-52) None in
  r1 = Ok None /\ r2 = Ok None /\ r3 = Ok None /\
  r4 = Ok (Some [("A", VInt (-42)); ("B", VInt (-51)); ("timestamp", VNum 1)]) /\
  _readings_stack e4 = [] /\
  Qfloor ((inject_Z (-40) + inject_Z (-44)) / inject_Z 2) = (-42)%Z /\
  Qfloor ((inject_Z (-50) + inject_Z (-52)) / inject_Z 2) = (-51)%Z.
Proof. vm_compute. repeat split; reflexivity. Qed.

(** ** Facts about binary64 comparisons and differences *)

Module FloatFacts.

Ltac order_cases :=
  repeat match goal with
         | H : context [Z.compare ?a ?b] |- _ =>
             destruct (Z.compare_spec a b); subst
         | |- context [Z.compare ?a ?b] =>
             destruct (Z.compare_spec a b); subst
         | H : context [Pos.compare_cont Eq ?a ?b] |- _ =>
             change (Pos.compare_cont Eq a b) with (Pos.compare a b) in *;
             destruct (Pos.compare_spec a b); subst
         | |- context [Pos.compare_cont Eq ?a ?b] =>
             change (Pos.compare_cont Eq a b) with (Pos.compare a b) in *;
             destruct (Pos.compare_spec a b); subst
         end.

Lemma SFcompare_antisym (x y : spec_float) :
  SFcompare y x = option_map CompOpp (SFcompare x y).
Proof.
  destruct x as [sx|sx| |sx mx ex], y as [sy|sy| |sy my ey]; simpl;
    try reflexivity;
    try (destruct sx; reflexivity); try (destruct sy; reflexivity);
    try (destruct sx, sy; reflexivity).
  destruct sx, sy; simpl; try reflexivity; order_cases; simpl;
    try reflexivity; try lia.
Qed.

Lemma SFcompare_lt_le_trans (a b c : spec_float) :
  SFcompare a b = Some Lt ->
  SFcompare b c = Some Lt \/ SFcompare b c = Some Eq ->
  SFcompare a c = Some Lt.
Proof.
  destruct a as [sa|sa| |sa ma ea], b as [sb|sb| |sb mb eb],
           c as [sc|sc| |sc mc ec]; simpl; intros H1 [H2|H2];
    try discriminate;
    try (destruct sa; try discriminate);
    try (destruct sb; try discriminate);
    try (destruct sc; try discriminate);
    try reflexivity;
    simpl in *; order_cases; simpl in *;
      try discriminate; try reflexivity; try lia.
Qed.

Lemma shr_1_nonneg (mrs : shr_record) :
  (0 <= shr_m mrs)%Z -> (0 <= shr_m (shr_1 mrs))%Z.
Proof.
  destruct mrs as [m r s]. simpl.
  destruct m as [|p|p]; [| destruct p | intros H; lia]; simpl; lia.
Qed.

Lemma iter_shr_1_nonneg (p : positive) :
  forall mrs, (0 <= shr_m mrs)%Z -> (0 <= shr_m (iter_pos shr_1 p mrs))%Z.
Proof.
  induction p as [p IH|p IH|]; simpl; intros mrs H.
  - apply IH, IH, shr_1_nonneg, H.
  - apply IH, IH, H.
  - apply shr_1_nonneg, H.
Qed.

Lemma shr_fexp_nonneg (m e : Z) (l : location) :
  (0 <= m)%Z -> (0 <= shr_m (fst (shr_fexp prec emax m e l)))%Z.
Proof.
  intros H. unfold shr_fexp, shr.
  assert (H0 : (0 <= shr_m (shr_record_of_loc m l))%Z)
    by (destruct l as [|[ | | ]]; exact H).
  destruct (fexp prec emax (Zdigits2 m + e) - e)%Z; simpl; auto.
  now apply iter_shr_1_nonneg.
Qed.

Lemma round_nearest_even_nonneg (m : Z) (l : location) :
  (0 <= m)%Z -> (0 <= round_nearest_even m l)%Z.
Proof.
  intros H. destruct l as [|[ | | ]]; simpl; try lia.
  destruct (Z.even m); lia.
Qed.

Lemma binary_round_aux_not_nan (sx : bool) (mx ex : Z) (lx : location) :
  (0 <= mx)%Z -> binary_round_aux prec emax sx mx ex lx <> S754_nan.
Proof.
  intros H. unfold binary_round_aux.
  pose proof (shr_fexp_nonneg mx ex lx H) as H1.
  destruct (shr_fexp prec emax mx ex lx) as [mrs' e']. simpl in H1.
  pose proof (shr_fexp_nonneg
                (round_nearest_even (shr_m mrs') (loc_of_shr_record mrs'))
                e' loc_Exact (round_nearest_even_nonneg _ _ H1)) as H2.
  destruct (shr_fexp prec emax _ e' loc_Exact) as [mrs'' e'']. simpl in H2.
  destruct (shr_m mrs'') as [|p|p]; try discriminate; [|lia].
  destruct (e'' <=? emax - prec)%Z; discriminate.
Qed.

Lemma binary_normalize_not_nan (m e : Z) (szero : bool) :
  binary_normalize prec emax m e szero <> S754_nan.
Proof.
  unfold binary_normalize, binary_round.
  destruct m as [|p|p]; try discriminate;
    destruct (shl_align _ _ _) as [mz ez];
    apply binary_round_aux_not_nan; lia.
Qed.

Lemma SFsub_finite_not_nan (x y : spec_float) :
  SFfinite x -> SFfinite y -> SF64sub x y <> S754_nan.
Proof.
  destruct x as [sx|sx| |sx mx ex], y as [sy|sy| |sy my ey]; simpl;
    try tauto; intros _ _.
  - destruct sx, sy; discriminate.
  - discriminate.
  - discriminate.
  - apply binary_normalize_not_nan.
Qed.

Lemma SFsub_diag (x : spec_float) :
  SF64sub x x = S754_nan \/ SF64sub x x = S754_zero false.
Proof.
  destruct x as [sx|sx| |sx mx ex]; simpl.
  - destruct sx; auto.
  - destruct sx; auto.
  - auto.
  - right. unfold SF64sub, SFsub. now rewrite Z.sub_diag.
Qed.

Lemma SFeqb_refl (s : spec_float) :
  SFeqb s s = match s with S754_nan => false | _ => true end.
Proof.
  unfold SFeqb. destruct s as [sx|sx| |sx m e]; simpl; try reflexivity.
  - now destruct sx.
  - destruct sx; rewrite Z.compare_refl;
      change (Pos.compare_cont Eq m m) with (Pos.compare m m);
      now rewrite Pos.compare_refl.
Qed.

Lemma is_nan_spec (x : float) :
  is_nan x = true <-> Prim2SF x = S754_nan.
Proof.
  unfold is_nan. rewrite eqb_spec, SFeqb_refl.
  destruct (Prim2SF x); simpl; split; congruence.
Qed.

Lemma is_nan_false (x : float) :
  is_nan x = false <-> Prim2SF x <> S754_nan.
Proof.
  rewrite <- is_nan_spec. destruct (is_nan x); split; congruence.
Qed.

Lemma is_finite_spec (x : float) :
  is_finite x = true -> SFfinite (Prim2SF x).
Proof.
  unfold is_finite, is_infinity. intros H.
  apply negb_true_iff, orb_false_iff in H. destruct H as [Hn Hi].
  apply is_nan_false in Hn.
  rewrite eqb_spec, abs_spec in Hi.
  destruct (Prim2SF x) as [s|s| |s m e]; simpl; auto.
  discriminate Hi.
Qed.

Lemma is_finite_not_nan (x : float) : is_finite x = true -> is_nan x = false.
Proof.
  unfold is_finite. intros H.
  apply negb_true_iff, orb_false_iff in H. tauto.
Qed.

Lemma sub_finite_not_nan (x y : float) :
  is_finite x = true -> is_finite y = true -> is_nan (x - y) = false.
Proof.
  intros Hx Hy. apply is_nan_false. rewrite sub_spec.
  apply SFsub_finite_not_nan; now apply is_finite_spec.
Qed.

Lemma SFcompare_defined (x y : spec_float) :
  x <> S754_nan -> y <> S754_nan -> exists c, SFcompare x y = Some c.
Proof.
  destruct x, y; simpl; intros Hx Hy; try congruence; eauto.
Qed.

(** Without NaN, [not (y < x)] is [x <= y]. *)
Lemma not_ltb_leb (x y : float) :
  is_nan x = false -> is_nan y = false ->
  (y <? x)%float = false -> (x <=? y)%float = true.
Proof.
  rewrite !is_nan_false, ltb_spec, leb_spec. unfold SFltb, SFleb.
  intros Hx Hy. rewrite (SFcompare_antisym (Prim2SF x) (Prim2SF y)).
  destruct (SFcompare_defined _ _ Hx Hy) as [c ->]. simpl.
  now destruct c.
Qed.

Lemma leb_refl (x : float) : is_nan x = false -> (x <=? x)%float = true.
Proof.
  intros H. apply not_ltb_leb; auto.
  rewrite ltb_spec. unfold SFltb.
  pose proof (SFcompare_antisym (Prim2SF x) (Prim2SF x)) as Ha.
  destruct (SFcompare (Prim2SF x) (Prim2SF x)) as [[ | | ]|]; simpl in Ha;
    auto; discriminate.
Qed.

(** [max < min <= d] gives [max < d]. *)
Lemma ltb_leb_trans (a b c : float) :
  (a <? b)%float = true -> (b <=? c)%float = true -> (a <? c)%float = true.
Proof.
  rewrite !ltb_spec, leb_spec. unfold SFltb, SFleb. intros H1 H2.
  rewrite (SFcompare_lt_le_trans (Prim2SF a) (Prim2SF b) (Prim2SF c)); auto.
  - destruct (SFcompare (Prim2SF a) (Prim2SF b)) as [[ | | ]|];
      congruence.
  - destruct (SFcompare (Prim2SF b) (Prim2SF c)) as [[ | | ]|];
      auto; discriminate.
Qed.

(** The difference of a timestamp with itself is never at least a positive
    bound. *)
Lemma sub_diag_below_positive (m t : float) :
  (0 <? m)%float = true -> (m <=? t - t)%float = false.
Proof.
  rewrite ltb_spec, leb_spec, sub_spec. unfold SFltb, SFleb.
  change (Prim2SF 0) with (S754_zero false).
  destruct (SFsub_diag (Prim2SF t)) as [-> | ->].
  - destruct (Prim2SF m); reflexivity.
  - destruct (Prim2SF m) as [s|s| |s me ee]; simpl; try discriminate;
      destruct s; simpl; auto; discriminate.
Qed.

(** The difference of a timestamp with itself never exceeds a bound that is
    not negative. *)
Lemma sub_diag_not_above (m t : float) :
  (0 <=? m)%float = true -> (m <? t - t)%float = false.
Proof.
  rewrite ltb_spec, leb_spec, sub_spec. unfold SFltb, SFleb.
  change (Prim2SF 0) with (S754_zero false).
  destruct (SFsub_diag (Prim2SF t)) as [-> | ->].
  - destruct (Prim2SF m); reflexivity.
  - destruct (Prim2SF m) as [s|s| |s me ee]; simpl; try discriminate;
      destruct s; simpl; auto; discriminate.
Qed.

End FloatFacts.

(** ** Facts about dictionaries *)

Module DictFacts.

Lemma get_set_same (k : string) (v : value) (d : Dict.t) :
  Dict.get k (Dict.set k v d) = Some v.
Proof.
  induction d as [|[k' v'] d IH]; simpl.
  - now rewrite String.eqb_refl.
  - destruct (String.eqb k' k) eqn:E; simpl; rewrite E; auto.
Qed.

Lemma get_set_other (k k' : string) (v : value) (d : Dict.t) :
  k <> k' -> Dict.get k (Dict.set k' v d) = Dict.get k d.
Proof.
  intros Hne. induction d as [|[k0 v0] d IH]; simpl.
  - destruct (String.eqb k' k) eqn:E; auto.
    apply String.eqb_eq in E. congruence.
  - destruct (String.eqb k0 k') eqn:E; simpl.
    + apply String.eqb_eq in E. subst k0.
      destruct (String.eqb k' k) eqn:E'; auto.
      apply String.eqb_eq in E'. congruence.
    + now rewrite IH.
Qed.

Lemma keys_set (k k' : string) (v : value) (d : Dict.t) :
  In k' (Dict.keys (Dict.set k v d)) <-> k' = k \/ In k' (Dict.keys d).
Proof.
  induction d as [|[k0 v0] d IH]; simpl.
  - intuition.
  - destruct (String.eqb k0 k) eqn:E; simpl.
    + apply String.eqb_eq in E. subst k0. intuition.
    + rewrite IH. intuition.
Qed.

Lemma NoDup_set (k : string) (v : value) (d : Dict.t) :
  NoDup (Dict.keys d) -> NoDup (Dict.keys (Dict.set k v d)).
Proof.
  induction d as [|[k0 v0] d IH]; simpl; intros Hnd.
  - constructor; [intros [] | constructor].
  - inversion Hnd as [|? ? Hnotin Hnd']; subst.
    destruct (String.eqb k0 k) eqn:E; simpl.
    + now constructor.
    + constructor; [|now apply IH].
      intros Hin. apply keys_set in Hin. destruct Hin as [->|Hin]; auto.
      now rewrite String.eqb_refl in E.
Qed.





End DictFacts.
(** ** Facts about the buffer *)

Section Buffer.

Variable self : SignalCaptureWindow.

Lemma set_stack_twice (s s' : list reading) :
  set_stack (set_stack self s) s' = set_stack self s'.
Proof. reflexivity. Qed.

Lemma set_stack_same : set_stack self (_readings_stack self) = self.
Proof. now destruct self. Qed.

(** The four shapes of the result of [process_reading]. *)
Lemma process_reading_cases (t : float) (m : string) (r : Z)
    (agg : option Dict.t) :
  let w := window_after_ingest self t m r in
  (check_valid_window (set_stack self w) t = false /\
   process_reading self t m r agg = (set_stack self w, Ok None))
  \/
  (check_valid_window (set_stack self w) t = true /\
   exists e, compose_fingerprint_data (set_stack self []) w = Raise e /\
     process_reading self t m r agg = (set_stack self [], Raise e))
  \/
  (check_valid_window (set_stack self w) t = true /\
   exists fp, compose_fingerprint_data (set_stack self []) w = Ok fp /\
     process_reading self t m r agg =
     (set_stack self [],
      Ok (Some (match agg with
                | Some extra =>
                    Dict.merge extra (Dict.set "timestamp" (VNum t) fp)
                | None => Dict.set "timestamp" (VNum t) fp
                end))))
  \/
  (check_valid_window (set_stack self w) t = true /\
   compose_fingerprint_data (set_stack self []) w = Unmodelled /\
   process_reading self t m r agg = (set_stack self [], Unmodelled)).
Proof.
  intros w. unfold process_reading. fold w.
  destruct (check_valid_window (set_stack self w) t) eqn:V; simpl.
  - right. rewrite set_stack_twice.
    destruct (compose_fingerprint_data (set_stack self []) w) as [fp|e|] eqn:C.
    + right. left. split; auto. exists fp. split; auto. now destruct agg.
    + left. split; auto. exists e. auto.
    + right. right. auto.
  - left. auto.
Qed.

End Buffer.

(** The eviction loop returns a suffix of the buffer, and every entry it
    drops is older than [max_window_size]. *)
Lemma remove_old_readings_suffix (maxw t : float) (s : list reading) :
  exists dropped,
    s = dropped ++ remove_old_readings maxw t s /\
    Forall (fun x => (maxw <? t - timestamp x)%float = true) dropped.
Proof.
  induction s as [|h s [d [IH HF]]]; simpl.
  - now exists [].
  - destruct (maxw <? t - timestamp h)%float eqn:E; simpl.
    + exists (h :: d). split; [simpl; now f_equal|].
      constructor; [exact E|exact HF].
    + now exists [].
Qed.

(** When the loop stops on a non-empty buffer, its head is not older than
    [max_window_size]. *)
Lemma remove_old_readings_head (maxw t : float) (s : list reading)
    (h : reading) (rest : list reading) :
  remove_old_readings maxw t s = h :: rest ->
  (maxw <? t - timestamp h)%float = false.
Proof.
  induction s as [|x s IH]; simpl; [discriminate|].
  destruct (maxw <? t - timestamp x)%float eqn:E; simpl; auto.
  intros [= -> _]. exact E.
Qed.

(** A non-empty window after an ingest ends with the reading just added. *)
Lemma window_after_ingest_last (self : SignalCaptureWindow) (t : float)
    (m : string) (r : Z) :
  window_after_ingest self t m r <> [] ->
  exists front, window_after_ingest self t m r = front ++ [mkReading t m r].
Proof.
  unfold window_after_ingest.
  destruct (remove_old_readings_suffix (_max_window_size self) t
              (_readings_stack self ++ [mkReading t m r])) as [d [Hd _]].
  set (w := remove_old_readings _ _ _) in *. intros Hne.
  destruct (exists_last Hne) as [front [x Hw]].
  exists front. rewrite Hw in Hd |- *.
  rewrite app_assoc in Hd. apply app_inj_tail in Hd. destruct Hd as [_ <-].
  reflexivity.
Qed.

(** After a call the buffer is the window just tested, or it is empty; the
    other attributes are never written. *)
Lemma process_reading_state (self : SignalCaptureWindow) (t : float)
    (m : string) (r : Z) (agg : option Dict.t) :
  exists s, fst (process_reading self t m r agg) = set_stack self s /\
            (s = [] \/ s = window_after_ingest self t m r).
Proof.
  destruct (process_reading_cases self t m r agg)
    as [[_ H]|[[_ [e [_ H]]]|[[_ [fp [_ H]]]|[_ [_ H]]]]];
    rewrite H; simpl; eauto.
Qed.

Lemma run_same_config (calls : list call) (self : SignalCaptureWindow) :
  same_config (run self calls) self.
Proof.
  revert self. induction calls as [|c calls IH]; intros self; simpl.
  - reflexivity.
  - unfold same_config in *. unfold run in *. simpl. rewrite IH.
    unfold step.
    destruct (process_reading_state self (call_timestamp c)
                (call_mac_sensor c) (call_rssi c) (call_aggregate_data c))
      as [s [-> _]].
    reflexivity.
Qed.

Lemma non_decreasing_app_r (a b : list float) :
  non_decreasing (a ++ b) -> non_decreasing b.
Proof.
  induction a as [|x a IH]; simpl; auto. intros [_ H]. auto.
Qed.

(** The timestamps of the buffer followed by those of the calls still to
    come stay in order along a run. *)
Lemma step_keeps_order (self : SignalCaptureWindow) (c : call)
    (calls : list call) :
  non_decreasing (map timestamp (_readings_stack self)
                  ++ map call_timestamp (c :: calls)) ->
  non_decreasing (map timestamp (_readings_stack (fst (step self c)))
                  ++ map call_timestamp calls).
Proof.
  intros H. unfold step.
  destruct (process_reading_state self (call_timestamp c)
              (call_mac_sensor c) (call_rssi c) (call_aggregate_data c))
    as [s [-> [->| ->]]]; simpl.
  - simpl in H. apply non_decreasing_app_r in H. simpl in H. tauto.
  - unfold window_after_ingest.
    destruct (remove_old_readings_suffix (_max_window_size self)
                (call_timestamp c)
                (_readings_stack self ++
                 [mkReading (call_timestamp c) (call_mac_sensor c) (call_rssi c)]))
      as [d [Hd _]].
    set (w := remove_old_readings _ _ _) in *.
    assert (E : map timestamp (_readings_stack self) ++ map call_timestamp (c :: calls)
                = map timestamp d ++ (map timestamp w ++ map call_timestamp calls)).
    { rewrite app_assoc, <- map_app, <- Hd, map_app, <- app_assoc. reflexivity. }
    rewrite E in H. now apply non_decreasing_app_r in H.
Qed.

Lemma run_keeps_order (calls rest : list call) (self : SignalCaptureWindow) :
  non_decreasing (map timestamp (_readings_stack self)
                  ++ map call_timestamp (calls ++ rest)) ->
  non_decreasing (map timestamp (_readings_stack (run self calls))
                  ++ map call_timestamp rest).
Proof.
  revert self. induction calls as [|c calls IH]; intros self H; simpl; auto.
  apply IH. now apply step_keeps_order.
Qed.

Lemma run_app (self : SignalCaptureWindow) (calls : list call) (c : call) :
  run self (calls ++ [c]) = fst (step (run self calls) c).
Proof. unfold run. now rewrite fold_left_app. Qed.

Lemma step_buffer_suffix (self : SignalCaptureWindow) (c : call) :
  exists dropped,
    _readings_stack self ++ [reading_of_call c]
    = dropped ++ _readings_stack (fst (step self c)).
Proof.
  unfold step.
  destruct (process_reading_state self (call_timestamp c)
              (call_mac_sensor c) (call_rssi c) (call_aggregate_data c))
    as [s [-> [->| ->]]]; simpl.
  - exists (_readings_stack self ++ [reading_of_call c]).
    now rewrite app_nil_r.
  - unfold window_after_ingest.
    destruct (remove_old_readings_suffix (_max_window_size self)
                (call_timestamp c)
                (_readings_stack self ++ [reading_of_call c]))
      as [d [Hd _]].
    exists d. exact Hd.
Qed.

Lemma buffer_suffix_helper (self : SignalCaptureWindow) (calls : list call) :
  exists consumed,
    _readings_stack self ++ map reading_of_call calls
    = consumed ++ _readings_stack (run self calls).
Proof.
  revert self. induction calls as [|c calls IH]; intros self; simpl.
  - exists []. now rewrite app_nil_r.
  - destruct (step_buffer_suffix self c) as [d Hd].
    destruct (IH (fst (step self c))) as [consumed Hc].
    exists (d ++ consumed).
    change (reading_of_call c :: map reading_of_call calls)
      with ([reading_of_call c] ++ map reading_of_call calls).
    rewrite app_assoc, Hd, <- !app_assoc. f_equal. exact Hc.
Qed.

(** ** The claims *)

(** C1. Eviction invariant: along any sequence of [process_reading] calls
    with non-decreasing timestamps on a fresh engine, right after each call
    the buffer is empty, or the timestamp just ingested minus the timestamp
    of the head is at most [max_window_size], the head being the oldest
    entry of the buffer (no entry has a smaller timestamp).  The
    difference and the comparisons are the binary64 ones of the program;
    the timestamps are numbers (finite) and [max_window_size] is not
    [nan].  The entries that the call evicts form a prefix of the buffer,
    each of them older than [max_window_size] with respect to the
    timestamp just ingested; nothing but the timestamps of the readings
    enters the computation. *)
Theorem eviction_invariant (sensor_mac_list : list string)
    (min_window_size max_window_size : float)
    (min_entries_per_sensor min_valid_sensors : Z)
    (filter_method : string) (invalid_sensor_value : Z)
    (calls : list call) (c : call) :
  non_decreasing (map call_timestamp (calls ++ [c])) ->
  Forall (fun x => is_finite (call_timestamp x) = true) (calls ++ [c]) ->
  is_nan max_window_size = false ->
  let e0 := init sensor_mac_list min_window_size max_window_size
                 min_entries_per_sensor min_valid_sensors filter_method
                 invalid_sensor_value in
  let before := run e0 calls in
  let self := run e0 (calls ++ [c]) in
  (_readings_stack self = [] \/
   exists head rest,
     _readings_stack self = head :: rest /\
     (call_timestamp c - timestamp head <=? max_window_size)%float = true /\
     Forall (fun x => (timestamp head <=? timestamp x)%float = true)
            (head :: rest)) /\
  (exists dropped,
     _readings_stack before
       ++ [mkReading (call_timestamp c) (call_mac_sensor c) (call_rssi c)]
     = dropped ++ window_after_ingest before (call_timestamp c)
                    (call_mac_sensor c) (call_rssi c) /\
     Forall (fun x => (max_window_size <? call_timestamp c - timestamp x)%float
                      = true)
            dropped).
Proof.
  intros Hord Hfinite Hmaxn e0 before self.
  assert (Hmax : _max_window_size before = max_window_size).
  { pose proof (run_same_config calls e0) as Hc. unfold same_config in Hc.
    change max_window_size with (_max_window_size (set_stack e0 [])).
    rewrite <- Hc. reflexivity. }
  split.
  - pose proof (run_keeps_order (calls ++ [c]) [] e0) as Hfin.
    rewrite app_nil_r in Hfin. simpl in Hfin. specialize (Hfin Hord).
    rewrite app_nil_r in Hfin. fold self in Hfin.
    destruct (buffer_suffix_helper e0 (calls ++ [c])) as [consumed Hsuf].
    fold self in Hsuf. simpl in Hsuf.
    destruct (_readings_stack self) as [|head rest] eqn:Hs; [now left|right].
    assert (Hhead : is_finite (timestamp head) = true).
    { assert (Hin : In head (map reading_of_call (calls ++ [c]))).
      { rewrite Hsuf. apply in_or_app. right. now left. }
      apply in_map_iff in Hin. destruct Hin as [x [<- Hx]].
      rewrite Forall_forall in Hfinite. now apply Hfinite. }
    assert (Hc : is_finite (call_timestamp c) = true).
    { rewrite Forall_forall in Hfinite. apply Hfinite.
      apply in_or_app. right. now left. }
    exists head, rest. split; [reflexivity|]. split.
    + apply FloatFacts.not_ltb_leb; auto.
      * now apply FloatFacts.sub_finite_not_nan.
      * subst self. rewrite run_app in Hs. unfold step in Hs.
        fold before in Hs.
        destruct (process_reading_state before (call_timestamp c)
                    (call_mac_sensor c) (call_rssi c) (call_aggregate_data c))
          as [s [Hst [->| ->]]]; rewrite Hst in Hs; simpl in Hs;
          [discriminate|].
        unfold window_after_ingest in Hs. rewrite Hmax in Hs.
        now apply remove_old_readings_head in Hs.
    + simpl in Hfin. destruct Hfin as [HF _]. constructor.
      * apply FloatFacts.leb_refl. now apply FloatFacts.is_finite_not_nan.
      * rewrite Forall_forall in HF |- *. intros x Hx.
        apply HF. now apply in_map.
  - unfold window_after_ingest. rewrite Hmax.
    apply remove_old_readings_suffix.
Qed.

(** Five calls in time order; the last one arrives 11 seconds after the
    first, whose reading is evicted. *)
Lemma eviction_invariant_witness :
  let calls := [mkCall 0 "A" (-40) None; mkCall 0.5 "B" (-50) None;
                mkCall 3 "B" (-51) None; mkCall 9 "B" (-52) None] in
  let c := mkCall 11 "A" (-41) None in
  let self := run (init ["A"; "B"] 1 10 2 2 "mean" 100) (calls ++ [c]) in
  non_decreasing (map call_timestamp (calls ++ [c])) /\
  (_readings_stack self = [] \/
   exists head rest,
     _readings_stack self = head :: rest /\
     (call_timestamp c - timestamp head <=? 10)%float = true /\
     Forall (fun x => (timestamp head <=? timestamp x)%float = true)
            (head :: rest)).
Proof.
  intros calls c self.
  assert (H : non_decreasing (map call_timestamp (calls ++ [c]))).
  { simpl. repeat split; repeat constructor. }
  assert (Hf : Forall (fun x => is_finite (call_timestamp x) = true)
                      (calls ++ [c])).
  { simpl. repeat constructor. }
  split; [exact H|].
  exact (proj1 (eviction_invariant ["A"; "B"] 1 10 2 2 "mean" 100 calls c
                  H Hf eq_refl)).
Defined.
(** An exception that leaves [process_reading] finds the buffer already
    emptied; the window that was being reduced was valid and ended with the
    reading of the call. *)
Lemma raise_clears_buffer (self self' : SignalCaptureWindow) (t : float)
    (m : string) (r : Z) (agg : option Dict.t) (e : exn) :
  process_reading self t m r agg = (self', Raise e) ->
  self' = set_stack self [] /\
  check_valid_window (set_stack self (window_after_ingest self t m r)) t = true /\
  compose_fingerprint_data (set_stack self []) (window_after_ingest self t m r)
  = Raise e.
Proof.
  intros H.
  destruct (process_reading_cases self t m r agg)
    as [[_ H']|[[V [e' [C H']]]|[[_ [fp [_ H']]]|[_ [_ H']]]]];
    rewrite H' in H; inversion H; subst; auto.
Qed.

Lemma valid_window_nonempty (self : SignalCaptureWindow) (t : float) :
  check_valid_window self t = true -> _readings_stack self <> [].
Proof.
  unfold check_valid_window. destruct (_readings_stack self); [discriminate|].
  intros _. discriminate.
Qed.

(** A window made of the ingested reading alone spans zero seconds. *)
Lemma valid_window_needs_history (self : SignalCaptureWindow) (t : float)
    (m : string) (r : Z) :
  (0 <? _min_window_size self)%float = true ->
  check_valid_window (set_stack self (window_after_ingest self t m r)) t = true ->
  _readings_stack self <> [].
Proof.
  intros Hpos V Hnil. unfold window_after_ingest in V. rewrite Hnil in V.
  simpl in V. unfold check_valid_window in V. simpl in V.
  destruct (_max_window_size self <? t - t)%float; simpl in V;
    [discriminate|].
  rewrite (FloatFacts.sub_diag_below_positive _ t Hpos) in V.
  discriminate V.
Qed.



(** C10. When [process_reading] raises the invalid-filter error, the buffer
    was emptied before the reduction ran: the object is left with an empty
    buffer, the valid window that was being reduced (which ended with the
    reading of the call) is lost, and the state before the call is not
    restored; with a positive [min_window_size] that earlier buffer was not
    empty. *)
Theorem invalid_filter_error_loses_window (self self' : SignalCaptureWindow)
    (t : float) (m : string) (r : Z) (agg : option Dict.t) :
  process_reading self t m r agg = (self', Raise InvalidFilteringType) ->
  _readings_stack self' = [] /\
  self' = set_stack self [] /\
  check_valid_window (set_stack self (window_after_ingest self t m r)) t = true /\
  (exists front,
      window_after_ingest self t m r = front ++ [mkReading t m r]) /\
  ((0 <? _min_window_size self)%float = true ->
   _readings_stack self <> [] /\ self' <> self).
Proof.
  intros H. apply raise_clears_buffer in H. destruct H as [-> [V _]].
  repeat split; auto.
  - apply window_after_ingest_last.
    apply valid_window_nonempty in V. exact V.
  - eapply valid_window_needs_history; eauto.
  - intros Heq.
    apply (valid_window_needs_history self t m r H V).
    rewrite <- Heq. reflexivity.
Qed.

Lemma invalid_filter_error_loses_window_witness :
  let e := mkWindow ["A"] 1 10 1 1 "average" 100 [mkReading 0 "A" (-40)] in
  process_reading e 1 "A" (-44) None = (set_stack e [], Raise InvalidFilteringType) /\
  _readings_stack (set_stack e []) = [] /\
  _readings_stack e <> [] /\ set_stack e [] <> e.
Proof.
  intros e.
  assert (H : process_reading e 1 "A" (-44) None
              = (set_stack e [], Raise InvalidFilteringType))
    by (vm_compute; reflexivity).
  destruct (invalid_filter_error_loses_window e (set_stack e []) 1 "A" (-44)
              None H) as [H1 [_ [_ [_ H5]]]].
  assert (Hpos : (0 <? _min_window_size e)%float = true) by reflexivity.
  destruct (H5 Hpos) as [H6 H7].
  repeat split; assumption.
Defined.

(** The number of readings of a sensor only grows when readings are
    appended. *)
Lemma enough_entries_app (self : SignalCaptureWindow) (sensor_mac : string)
    (b extra : list reading) :
  enough_entries self sensor_mac b = true ->
  enough_entries self sensor_mac (b ++ extra) = true.
Proof.
  unfold enough_entries, sensor_readings. rewrite filter_app, length_app.
  intros H. apply Z.leb_le in H. apply Z.leb_le. lia.
Qed.

Lemma count_valid_sensors_app (self : SignalCaptureWindow)
    (b extra : list reading) :
  (count_valid_sensors self b <= count_valid_sensors self (b ++ extra))%Z.
Proof.
  unfold count_valid_sensors.
  assert (G : forall sensors acc acc', (acc <= acc')%Z ->
    (fold_left (fun v s => if enough_entries self s b then (v + 1)%Z else v)
               sensors acc
     <= fold_left (fun v s => if enough_entries self s (b ++ extra)
                              then (v + 1)%Z else v) sensors acc')%Z).
  { induction sensors as [|s sensors IH]; simpl; intros acc acc' Hle; auto.
    apply IH.
    destruct (enough_entries self s b) eqn:E.
    - rewrite (enough_entries_app _ _ _ extra E). lia.
    - destruct (enough_entries self s (b ++ extra)); lia. }
  apply G. lia.
Qed.

(** C7. Validity is monotone: a window that is valid for the right edge [t]
    stays valid for the same [t] when readings are appended to the buffer
    and nothing is evicted. *)
Theorem valid_window_monotone (self : SignalCaptureWindow) (t : float)
    (extra : list reading) :
  check_valid_window self t = true ->
  check_valid_window (set_stack self (_readings_stack self ++ extra)) t = true.
Proof.
  unfold check_valid_window. simpl.
  destruct (_readings_stack self) as [|head rest] eqn:Hs; [discriminate|].
  simpl.
  destruct (_min_window_size self <=? t - timestamp head)%float; simpl;
    [|discriminate].
  change (head :: rest ++ extra) with ((head :: rest) ++ extra).
  pose proof (count_valid_sensors_app self (head :: rest) extra) as Hle.
  change (count_valid_sensors (set_stack self ((head :: rest) ++ extra)))
    with (count_valid_sensors self).
  destruct (count_valid_sensors self (head :: rest) <? _min_valid_sensors self)%Z
    eqn:E1; [discriminate|].
  intros _. apply Z.ltb_ge in E1.
  destruct (count_valid_sensors self ((head :: rest) ++ extra)
            <? _min_valid_sensors self)%Z eqn:E2; auto.
  apply Z.ltb_lt in E2. lia.
Qed.

Lemma valid_window_monotone_witness :
  let e := mkWindow ["A"; "B"] 1 10 2 2 "mean" 100
             [mkReading 0 "A" (-40); mkReading 0.2 "B" (-50);
              mkReading 0.5 "A" (-44); mkReading 1 "B" (-52)] in
  let extra := [mkReading 1 "A" (-47); mkReading 1 "C" (-60)] in
  check_valid_window e 1 = true /\
  check_valid_window (set_stack e (_readings_stack e ++ extra)) 1 = true.
Proof.
  intros e extra.
  assert (H : check_valid_window e 1 = true) by reflexivity.
  split; [exact H|].
  exact (valid_window_monotone e 1 extra H).
Defined.

(** ** Facts about [compose_fingerprint_data] *)

Section Compose.

Variable self : SignalCaptureWindow.
Variable readings_stack : list reading.


(** The loop succeeds when every sensor value can be computed. *)
Lemma compose_loop_total (sensors : list string) :
  (forall s, exists v, sensor_value self readings_stack s = Ok v) ->
  forall fp, exists fp', compose_loop self readings_stack sensors fp = Ok fp'.
Proof.
  intros Hall. induction sensors as [|s0 sensors IH]; simpl; intros fp.
  - eauto.
  - destruct (Hall s0) as [v ->]. simpl. apply IH.
Qed.

End Compose.

(** ** Unknown filter methods *)

Lemma apply_filter_unknown (filter_method : string) (l : list reading) :
  known_filter filter_method = false ->
  apply_filter filter_method l = Raise InvalidFilteringType.
Proof.
  unfold known_filter, apply_filter. simpl. intros H.
  repeat (apply orb_false_elim in H; destruct H as [-> H]).
  reflexivity.
Qed.

Section Unknown.

Variable self : SignalCaptureWindow.
Variable readings_stack : list reading.
Hypothesis unknown : known_filter (_filter_method self) = false.

Lemma sensor_value_unknown (s : string) :
  sensor_value self readings_stack s =
  if enough_entries self s readings_stack then Raise InvalidFilteringType
  else Ok (VInt (_invalid_sensor_value self)).
Proof.
  unfold sensor_value. now rewrite apply_filter_unknown.
Qed.

(** The loop raises at the first sensor that has enough entries, and
    writes the sentinel for every sensor when there is none. *)
Lemma compose_loop_unknown (sensors : list string) (fp : Dict.t) :
  compose_loop self readings_stack sensors fp =
  if existsb (fun s => enough_entries self s readings_stack) sensors
  then Raise InvalidFilteringType
  else Ok (all_invalid self sensors fp).
Proof.
  revert fp. induction sensors as [|s0 sensors IH]; simpl; intros fp; auto.
  rewrite sensor_value_unknown.
  destruct (enough_entries self s0 readings_stack); simpl; auto.
Qed.

End Unknown.

(** Without a sensor that has enough entries the count of valid sensors
    is zero. *)
Lemma count_valid_sensors_none (self : SignalCaptureWindow)
    (readings_stack : list reading) :
  existsb (fun s => enough_entries self s readings_stack)
          (_sensor_mac_list self) = false ->
  count_valid_sensors self readings_stack = 0%Z.
Proof.
  unfold count_valid_sensors. generalize 0%Z.
  induction (_sensor_mac_list self) as [|s0 sensors IH]; simpl; intros acc H;
    auto.
  apply orb_false_elim in H. destruct H as [-> H]. auto.
Qed.

Lemma valid_window_has_valid_sensor (self : SignalCaptureWindow) (t : float) :
  (1 <= _min_valid_sensors self)%Z ->
  check_valid_window self t = true ->
  existsb (fun s => enough_entries self s (_readings_stack self))
          (_sensor_mac_list self) = true.
Proof.
  intros Hmin V. unfold check_valid_window in V.
  destruct (_readings_stack self) as [|head rest] eqn:Hs; [discriminate|].
  destruct (negb _); [discriminate|].
  destruct (count_valid_sensors self (head :: rest) <? _min_valid_sensors self)%Z
    eqn:E; [discriminate|].
  apply Z.ltb_ge in E.
  destruct (existsb _ _) eqn:X; auto.
  apply count_valid_sensors_none in X. lia.
Qed.

(** C5. The claim fails on the code at this input: with
    [min_valid_sensors = 0] the window below is valid and
    [compose_fingerprint_data] runs with the unknown filter method
    [average], yet no sensor has two entries, the branch that raises is
    never entered, and the call returns a fingerprint made of sentinels
    instead of raising. *)
Theorem unknown_filter_without_valid_sensor :
  let e := mkWindow ["A"; "B"] 1 10 2 0 "average" 100
             [mkReading 0 "A" (-40)] in
  known_filter (_filter_method e) = false /\
  check_valid_window
    (set_stack e (window_after_ingest e 1 "B" (-50))) 1 = true /\
  compose_fingerprint_data (set_stack e []) (window_after_ingest e 1 "B" (-50))
  = Ok [("A", VInt 100); ("B", VInt 100)] /\
  process_reading e 1 "B" (-50) None
  = (set_stack e [],
     Ok (Some [("A", VInt 100); ("B", VInt 100); ("timestamp", VNum 1)])).
Proof. vm_compute. repeat split; reflexivity. Qed.

(** ** The shape of an emitted fingerprint *)










(** ** Unknown filter methods, call by call *)

(** X19. With a filter method outside the six known ones, a call of
    [process_reading] returns [None] when the window is not valid, raises
    the invalid-filter error (leaving the buffer empty) when the window is
    valid and some configured sensor has [min_entries_per_sensor] readings
    or more, and otherwise returns the fingerprint that holds the sentinel
    for every sensor, the timestamp, and the extra fields underneath.  A
    valid window has such a sensor whenever [min_valid_sensors >= 1]. *)
Theorem unknown_filter_call_by_call (self : SignalCaptureWindow) (t : float)
    (m : string) (r : Z) (agg : option Dict.t) :
  known_filter (_filter_method self) = false ->
  let w := window_after_ingest self t m r in
  let some_valid :=
    existsb (fun s => enough_entries self s w) (_sensor_mac_list self) in
  let sentinels :=
    Dict.set "timestamp" (VNum t)
             (all_invalid self (_sensor_mac_list self) Dict.empty) in
  process_reading self t m r agg
  = (if negb (check_valid_window (set_stack self w) t)
     then (set_stack self w, Ok None)
     else if some_valid
     then (set_stack self [], Raise InvalidFilteringType)
     else (set_stack self [],
           Ok (Some (match agg with
                     | Some extra => Dict.merge extra sentinels
                     | None => sentinels
                     end)))) /\
  (check_valid_window (set_stack self w) t = true ->
   (1 <= _min_valid_sensors self)%Z -> some_valid = true).
Proof.
  intros Hunk w some_valid sentinels. split.
  - assert (Hcomp : compose_fingerprint_data (set_stack self []) w =
                    if some_valid then Raise InvalidFilteringType
                    else Ok (all_invalid self (_sensor_mac_list self)
                                         Dict.empty)).
    { unfold compose_fingerprint_data.
      rewrite (compose_loop_unknown (set_stack self []) w Hunk). reflexivity. }
    unfold process_reading. fold w.
    destruct (check_valid_window (set_stack self w) t); simpl; auto.
    rewrite set_stack_twice, Hcomp.
    destruct some_valid; auto. now destruct agg.
  - intros Hr Hmin.
    apply (valid_window_has_valid_sensor (set_stack self w) t Hmin Hr).
Qed.

Lemma unknown_filter_call_by_call_witness :
  let e := mkWindow ["A"; "B"] 1 10 2 1 "average" 100
             [mkReading 0 "A" (-40); mkReading 0.5 "A" (-44)] in
  known_filter (_filter_method e) = false /\
  process_reading e 0.75 "B" (-50) None
  = (set_stack e (window_after_ingest e 0.75 "B" (-50)), Ok None) /\
  process_reading e 1 "B" (-50) None
  = (set_stack e [], Raise InvalidFilteringType).
Proof.
  intros e.
  assert (Hunk : known_filter (_filter_method e) = false) by reflexivity.
  split; [exact Hunk|]. split.
  - rewrite (proj1 (unknown_filter_call_by_call e 0.75 "B" (-50) None Hunk)).
    reflexivity.
  - rewrite (proj1 (unknown_filter_call_by_call e 1 "B" (-50) None Hunk)).
    reflexivity.
Defined.

(** ** Further properties of the window *)


(** The window that [process_reading] tests, when it is valid. *)
Lemma valid_window_after_ingest (self : SignalCaptureWindow) (t : float)
    (m : string) (r : Z) :
  check_valid_window (set_stack self (window_after_ingest self t m r)) t = true ->
  exists head rest,
    window_after_ingest self t m r = head :: rest /\
    (_min_window_size self <=? t - timestamp head)%float = true /\
    (_max_window_size self <? t - timestamp head)%float = false /\
    (_min_valid_sensors self
     <= count_valid_sensors self (window_after_ingest self t m r))%Z.
Proof.
  intros V. unfold check_valid_window in V. simpl in V.
  destruct (window_after_ingest self t m r) as [|head rest] eqn:Hw;
    [discriminate|].
  exists head, rest. split; [reflexivity|].
  destruct (_min_window_size self <=? t - timestamp head)%float eqn:E;
    simpl in V; [|discriminate].
  split; [reflexivity|]. split.
  - unfold window_after_ingest in Hw.
    now apply remove_old_readings_head in Hw.
  - change (count_valid_sensors (set_stack self (head :: rest)))
      with (count_valid_sensors self) in V.
    destruct (count_valid_sensors self (head :: rest) <? _min_valid_sensors self)%Z
      eqn:E2; [discriminate|].
    apply Z.ltb_ge in E2. exact E2.
Qed.



(** X3. When [max_window_size] is smaller than [min_window_size] no call
    ever emits or raises: eviction keeps the head too recent for the
    minimal length, the call returns [None] and the buffer keeps the
    window. *)
Theorem no_emission_when_max_below_min (self : SignalCaptureWindow)
    (t : float) (m : string) (r : Z) (agg : option Dict.t) :
  (_max_window_size self <? _min_window_size self)%float = true ->
  process_reading self t m r agg
  = (set_stack self (window_after_ingest self t m r), Ok None).
Proof.
  intros Hlt.
  destruct (process_reading_cases self t m r agg)
    as [[_ H]|[[V _]|[[V _]|[V _]]]]; auto;
    destruct (valid_window_after_ingest self t m r V)
      as [head [rest [_ [Hmin [Hmax _]]]]];
    exfalso;
    rewrite (FloatFacts.ltb_leb_trans _ _ _ Hlt Hmin) in Hmax;
    discriminate Hmax.
Qed.

Lemma no_emission_when_max_below_min_witness :
  let e := mkWindow ["A"] 5 2 1 1 "mean" 100 [mkReading 0 "A" (-40)] in
  process_reading e 6 "A" (-41) None
  = (set_stack e [mkReading 6 "A" (-41)], Ok None).
Proof.
  intros e.
  assert (H : (_max_window_size e <? _min_window_size e)%float = true)
    by reflexivity.
  exact (no_emission_when_max_below_min e 6 "A" (-41) None H).
Defined.

(** X4. On an empty buffer, with a positive [min_window_size] and a
    [max_window_size] that is not negative, a call returns [None] and
    leaves its reading alone in the buffer: a window needs an earlier
    reading to reach the minimal length. *)
Theorem first_reading_is_buffered (self : SignalCaptureWindow) (t : float)
    (m : string) (r : Z) (agg : option Dict.t) :
  _readings_stack self = [] ->
  (0 <? _min_window_size self)%float = true ->
  (0 <=? _max_window_size self)%float = true ->
  process_reading self t m r agg
  = (set_stack self [mkReading t m r], Ok None).
Proof.
  intros Hs Hmin Hmax.
  assert (Hw : window_after_ingest self t m r = [mkReading t m r]).
  { unfold window_after_ingest. rewrite Hs. simpl.
    now rewrite (FloatFacts.sub_diag_not_above _ t Hmax). }
  destruct (process_reading_cases self t m r agg)
    as [[_ H]|[[V _]|[[V _]|[V _]]]]; try (rewrite H, Hw; reflexivity);
    exfalso; apply (valid_window_needs_history self t m r Hmin V Hs).
Qed.

Lemma first_reading_is_buffered_witness :
  let e := init ["A"; "B"] 1 10 1 1 "max" 100 in
  process_reading e 7 "A" (-40) None
  = (set_stack e [mkReading 7 "A" (-40)], Ok None).
Proof.
  intros e.
  apply (first_reading_is_buffered e 7 "A" (-40) None); reflexivity.
Defined.


(** ** Facts about the filters *)

Module FilterFacts.

Import Filters.

Lemma sum_bounds (lo hi : Z) (l : list Z) :
  within lo hi l ->
  (lo * Z.of_nat (List.length l) <= sum l
   <= hi * Z.of_nat (List.length l))%Z.
Proof.
  induction 1 as [|x l Hx _ IH]; simpl List.length; simpl sum; [lia|].
  rewrite Nat2Z.inj_succ. lia.
Qed.

Lemma in_insert (x y : Z) (l : list Z) :
  In y (insert x l) <-> y = x \/ In y l.
Proof.
  induction l as [|z l IH]; simpl.
  - intuition.
  - destruct (x <=? z)%Z; simpl; [|rewrite IH]; intuition.
Qed.

Lemma in_sort (y : Z) (l : list Z) : In y (sort l) <-> In y l.
Proof.
  induction l as [|x l IH]; simpl; [tauto|].
  rewrite in_insert, IH. intuition.
Qed.

Lemma length_insert (x : Z) (l : list Z) :
  List.length (insert x l) = S (List.length l).
Proof.
  induction l as [|z l IH]; simpl; auto.
  destruct (x <=? z)%Z; simpl; auto.
Qed.

Lemma length_sort (l : list Z) : List.length (sort l) = List.length l.
Proof.
  induction l as [|x l IH]; simpl; auto. now rewrite length_insert, IH.
Qed.

Lemma in_argmax_count (l : list Z) (candidates : list Z) (best : Z) :
  In (argmax_count l best candidates) (best :: candidates).
Proof.
  revert best. induction candidates as [|c rest IH]; intros best; simpl.
  - auto.
  - destruct (count best l <? count c l)%nat.
    + destruct (IH c) as [H|H]; auto.
    + destruct (IH best) as [H|H]; auto.
Qed.

Lemma fold_max_spec (rest : list Z) (x : Z) :
  In (fold_left Z.max rest x) (x :: rest) /\
  Forall (fun y => (y <= fold_left Z.max rest x)%Z) (x :: rest).
Proof.
  revert x. induction rest as [|y rest IH]; intros x; simpl.
  - split; [auto|]. constructor; [lia|constructor].
  - destruct (IH (Z.max x y)) as [Hin Hall].
    inversion Hall as [|? ? Hm Hrest]; subst. split.
    + destruct Hin as [Hin|Hin]; [|auto].
      rewrite <- Hin. destruct (Z.max_spec x y) as [[_ ->]|[_ ->]]; auto.
    + constructor; [lia|]. constructor; [lia|exact Hrest].
Qed.

Lemma fold_min_spec (rest : list Z) (x : Z) :
  In (fold_left Z.min rest x) (x :: rest) /\
  Forall (fun y => (fold_left Z.min rest x <= y)%Z) (x :: rest).
Proof.
  revert x. induction rest as [|y rest IH]; intros x; simpl.
  - split; [auto|]. constructor; [lia|constructor].
  - destruct (IH (Z.min x y)) as [Hin Hall].
    inversion Hall as [|? ? Hm Hrest]; subst. split.
    + destruct Hin as [Hin|Hin]; [|auto].
      rewrite <- Hin. destruct (Z.min_spec x y) as [[_ ->]|[_ ->]]; auto.
    + constructor; [lia|]. constructor; [lia|exact Hrest].
Qed.

Lemma within_in (lo hi : Z) (l : list Z) (x : Z) :
  within lo hi l -> In x l -> (lo <= x <= hi)%Z.
Proof. unfold within. rewrite Forall_forall. auto. Qed.

Lemma mean_spec (l : list Z) :
  l <> [] -> representable l = true ->
  exists v, (x <- np_mean l ;; math_floor x) = Ok v /\
            forall lo hi, within lo hi l -> (lo <= v <= hi)%Z.
Proof.
  intros Hne Hrep. destruct l as [|x l']; [congruence|].
  set (l := x :: l') in *.
  exists (sum l / Z.of_nat (List.length l))%Z. split.
  - unfold np_mean, l. fold l. rewrite Hrep. unfold bind, math_floor.
    now rewrite <- Zdiv_Qdiv.
  - intros lo hi Hw. apply sum_bounds in Hw.
    assert (Hn : (0 < Z.of_nat (List.length l))%Z) by (unfold l; simpl; lia).
    split.
    + apply Z.div_le_lower_bound; lia.
    + apply Z.div_le_upper_bound; lia.
Qed.

Lemma median_spec (l : list Z) :
  l <> [] -> representable l = true ->
  exists v, (x <- np_median l ;; math_floor x) = Ok v /\
            forall lo hi, within lo hi l -> (lo <= v <= hi)%Z.
Proof.
  intros Hne Hrep. destruct l as [|x l']; [congruence|].
  set (l := x :: l') in *.
  assert (Hlen : (0 < List.length (sort l))%nat)
    by (rewrite length_sort; unfold l; simpl; lia).
  assert (Hmid : In (nth (Nat.div2 (List.length (sort l))) (sort l) 0%Z) l).
  { apply in_sort, nth_In. now apply Nat.lt_div2. }
  assert (Hlow : In (nth (Nat.div2 (List.length (sort l)) - 1) (sort l) 0%Z) l).
  { apply in_sort, nth_In. pose proof (Nat.lt_div2 _ Hlen). lia. }
  assert (Hm : np_median l =
               if Nat.odd (List.length (sort l))
               then Ok (Fin (inject_Z (nth (Nat.div2 (List.length (sort l)))
                                           (sort l) 0%Z)))
               else Ok (Fin ((inject_Z (nth (Nat.div2 (List.length (sort l)) - 1)
                                            (sort l) 0%Z)
                              + inject_Z (nth (Nat.div2 (List.length (sort l)))
                                              (sort l) 0%Z)) / inject_Z 2))).
  { unfold np_median, l. fold l. now rewrite Hrep. }
  rewrite Hm. clear Hm.
  destruct (Nat.odd (List.length (sort l))).
  - eexists. split; [unfold bind, math_floor; rewrite Qfloor_Z; reflexivity|].
    intros lo hi Hw. now apply (within_in lo hi l).
  - set (a := nth (Nat.div2 (List.length (sort l)) - 1) (sort l) 0%Z) in *.
    set (b := nth (Nat.div2 (List.length (sort l))) (sort l) 0%Z) in *.
    exists ((a + b) / 2)%Z. split.
    + unfold bind, math_floor. f_equal. rewrite Zdiv_Qdiv. apply Qfloor_comp.
      rewrite inject_Z_plus. reflexivity.
    + intros lo hi Hw.
      pose proof (within_in lo hi l a Hw Hlow).
      pose proof (within_in lo hi l b Hw Hmid).
      split; [apply Z.div_le_lower_bound | apply Z.div_le_upper_bound]; lia.
Qed.

Lemma mode_spec (l : list Z) :
  l <> [] -> representable l = true ->
  exists v, (x <- stats_mode l ;; math_floor x) = Ok v /\ In v l /\
            forall lo hi, within lo hi l -> (lo <= v <= hi)%Z.
Proof.
  intros Hne Hrep. unfold stats_mode.
  destruct (sort l) as [|x rest] eqn:Hs.
  - exfalso. apply Hne. apply length_zero_iff_nil.
    rewrite <- length_sort, Hs. reflexivity.
  - assert (Hin : In (argmax_count l x rest) l).
    { apply in_sort. rewrite Hs. apply in_argmax_count. }
    rewrite Hrep.
    eexists. split; [unfold bind, math_floor; rewrite Qfloor_Z; reflexivity|].
    split; [exact Hin|]. intros lo hi Hw. now apply (within_in lo hi l).
Qed.

Lemma max_spec (l : list Z) :
  l <> [] -> representable l = true ->
  exists v, np_max l = Ok v /\ In v l /\ Forall (fun y => (y <= v)%Z) l.
Proof.
  intros Hne Hrep. destruct l as [|x rest]; [congruence|].
  exists (fold_left Z.max rest x).
  split; [unfold np_max; now rewrite Hrep|]. apply fold_max_spec.
Qed.

Lemma min_spec (l : list Z) :
  l <> [] -> representable l = true ->
  exists v, np_min l = Ok v /\ In v l /\ Forall (fun y => (v <= y)%Z) l.
Proof.
  intros Hne Hrep. destruct l as [|x rest]; [congruence|].
  exists (fold_left Z.min rest x).
  split; [unfold np_min; now rewrite Hrep|]. apply fold_min_spec.
Qed.

End FilterFacts.

Lemma map_rssi_nonempty (l : list reading) : l <> [] -> map rssi l <> [].
Proof. destruct l; [congruence|discriminate]. Qed.

Lemma integer_filter_cases (filter_method : string) :
  integer_filter filter_method = true ->
  filter_method = "mean" \/ filter_method = "median" \/
  filter_method = "mode" \/ filter_method = "max" \/ filter_method = "min".
Proof.
  unfold integer_filter. simpl. intros H.
  repeat (apply orb_true_iff in H; destruct H as [H|H];
          [apply String.eqb_eq in H; tauto|]).
  discriminate H.
Qed.

Lemma representable_sensor_readings (s : string) (rs : list reading) :
  Filters.representable (map rssi rs) = true ->
  Filters.representable (map rssi (sensor_readings s rs)) = true.
Proof.
  unfold Filters.representable. intros H. apply Z.ltb_lt in H.
  apply Z.ltb_lt. eapply Z.le_lt_trans; [|exact H].
  unfold sensor_readings.
  induction rs as [|x rs IH]; simpl; [lia|].
  assert (H0 : (0 <= Filters.sum (map Z.abs (map rssi rs)))%Z).
  { clear. induction rs as [|y rs IH]; simpl; lia. }
  destruct (String.eqb (mac_sensor x) s); simpl.
  - assert (H1 : (Filters.sum (map Z.abs (map rssi rs)) < 2 ^ 53)%Z)
      by (simpl in H; lia).
    specialize (IH H1). lia.
  - assert (H1 : (Filters.sum (map Z.abs (map rssi rs)) < 2 ^ 53)%Z)
      by (simpl in H; lia).
    specialize (IH H1). lia.
Qed.

(** X6. For the filters mean, median, mode, max and min applied to a
    non-empty sample whose absolute values add up to less than [2^53], the
    value assigned to the sensor is an integer that lies between the
    smallest and the largest RSSI of the sample: whenever all the readings
    are within [lo, hi], so is the value (and a sample of equal readings
    gives that reading back). *)
Theorem integer_filters_stay_in_range (filter_method : string)
    (l : list reading) (lo hi : Z) :
  integer_filter filter_method = true ->
  l <> [] ->
  Filters.representable (map rssi l) = true ->
  Forall (fun x => (lo <= rssi x <= hi)%Z) l ->
  exists v, apply_filter filter_method l = Ok (VInt v) /\ (lo <= v <= hi)%Z.
Proof.
  intros Hf Hne Hrep Hall.
  assert (Hw : within lo hi (map rssi l)).
  { unfold within. rewrite Forall_map. exact Hall. }
  pose proof (map_rssi_nonempty l Hne) as Hne'.
  destruct (integer_filter_cases _ Hf) as [->|[->|[->|[->| ->]]]];
    unfold apply_filter; simpl.
  - destruct (FilterFacts.mean_spec _ Hne' Hrep) as [v [Hv Hb]].
    unfold bind in Hv |- *.
    destruct (Filters.np_mean (map rssi l)); try discriminate.
    rewrite Hv. eauto.
  - destruct (FilterFacts.median_spec _ Hne' Hrep) as [v [Hv Hb]].
    unfold bind in Hv |- *.
    destruct (Filters.np_median (map rssi l)); try discriminate.
    rewrite Hv. eauto.
  - destruct (FilterFacts.mode_spec _ Hne' Hrep) as [v [Hv [_ Hb]]].
    unfold bind in Hv |- *.
    destruct (Filters.stats_mode (map rssi l)); try discriminate.
    rewrite Hv. eauto.
  - destruct (FilterFacts.max_spec _ Hne' Hrep) as [v [-> [Hin _]]]. simpl.
    exists v. split; auto. now apply (FilterFacts.within_in lo hi _ v Hw).
  - destruct (FilterFacts.min_spec _ Hne' Hrep) as [v [-> [Hin _]]]. simpl.
    exists v. split; auto. now apply (FilterFacts.within_in lo hi _ v Hw).
Qed.

Lemma integer_filters_stay_in_range_witness :
  let l := [mkReading 0 "A" (-40); mkReading 1 "A" (-47);
            mkReading 2 "A" (-44); mkReading 3 "A" (-47)] in
  exists v, apply_filter "median" l = Ok (VInt v) /\ (-47 <= v <= -40)%Z.
Proof.
  intros l.
  apply (integer_filters_stay_in_range "median" l (-47) (-40));
    [reflexivity | discriminate | reflexivity
     | repeat constructor; simpl; lia].
Defined.

(** X7. On a non-empty sample whose absolute values add up to less than
    [2^53], the [max] filter returns the largest RSSI of the sample and
    the [min] filter the smallest one; both are values that occur in the
    sample, and so is the value of the [mode] filter. *)
Theorem extreme_filters_pick_a_reading (l : list reading) :
  l <> [] ->
  Filters.representable (map rssi l) = true ->
  (exists v, apply_filter "max" l = Ok (VInt v) /\ In v (map rssi l) /\
             Forall (fun x => (rssi x <= v)%Z) l) /\
  (exists v, apply_filter "min" l = Ok (VInt v) /\ In v (map rssi l) /\
             Forall (fun x => (v <= rssi x)%Z) l) /\
  (exists v, apply_filter "mode" l = Ok (VInt v) /\ In v (map rssi l)).
Proof.
  intros Hne Hrep. pose proof (map_rssi_nonempty l Hne) as Hne'.
  unfold apply_filter. simpl. split; [|split].
  - destruct (FilterFacts.max_spec _ Hne' Hrep) as [v [-> [Hin Hall]]]. simpl.
    exists v. repeat split; auto. now rewrite Forall_map in Hall.
  - destruct (FilterFacts.min_spec _ Hne' Hrep) as [v [-> [Hin Hall]]]. simpl.
    exists v. repeat split; auto. now rewrite Forall_map in Hall.
  - destruct (FilterFacts.mode_spec _ Hne' Hrep) as [v [Hv [Hin _]]].
    unfold bind in Hv |- *.
    destruct (Filters.stats_mode (map rssi l)); try discriminate.
    rewrite Hv. eauto.
Qed.

Lemma extreme_filters_pick_a_reading_witness :
  let l := [mkReading 0 "A" (-40); mkReading 1 "A" (-47);
            mkReading 2 "A" (-44); mkReading 3 "A" (-47)] in
  (exists v, apply_filter "max" l = Ok (VInt v) /\ In v (map rssi l) /\
             Forall (fun x => (rssi x <= v)%Z) l) /\
  (exists v, apply_filter "min" l = Ok (VInt v) /\ In v (map rssi l) /\
             Forall (fun x => (v <= rssi x)%Z) l) /\
  (exists v, apply_filter "mode" l = Ok (VInt v) /\ In v (map rssi l)).
Proof.
  intros l. apply (extreme_filters_pick_a_reading l);
    [discriminate | reflexivity].
Defined.

(** ** Calls that cannot raise *)

Lemma apply_filter_defined (filter_method : string) (l : list reading) :
  integer_filter filter_method = true ->
  l <> [] ->
  Filters.representable (map rssi l) = true ->
  exists v, apply_filter filter_method l = Ok v.
Proof.
  intros Hi Hne Hrep. pose proof (map_rssi_nonempty l Hne) as Hne'.
  destruct (integer_filter_cases _ Hi) as [->|[->|[->|[->| ->]]]];
    unfold apply_filter; simpl.
  - destruct (FilterFacts.mean_spec _ Hne' Hrep) as [v [Hv _]].
    unfold bind in Hv |- *.
    destruct (Filters.np_mean (map rssi l)); try discriminate.
    rewrite Hv. eauto.
  - destruct (FilterFacts.median_spec _ Hne' Hrep) as [v [Hv _]].
    unfold bind in Hv |- *.
    destruct (Filters.np_median (map rssi l)); try discriminate.
    rewrite Hv. eauto.
  - destruct (FilterFacts.mode_spec _ Hne' Hrep) as [v [Hv _]].
    unfold bind in Hv |- *.
    destruct (Filters.stats_mode (map rssi l)); try discriminate.
    rewrite Hv. eauto.
  - destruct (FilterFacts.max_spec _ Hne' Hrep) as [v [-> _]]. simpl. eauto.
  - destruct (FilterFacts.min_spec _ Hne' Hrep) as [v [-> _]]. simpl. eauto.
Qed.

Lemma sensor_value_defined (self : SignalCaptureWindow)
    (readings_stack : list reading) (s : string) :
  integer_filter (_filter_method self) = true ->
  (1 <= _min_entries_per_sensor self)%Z ->
  Filters.representable (map rssi readings_stack) = true ->
  exists v, sensor_value self readings_stack s = Ok v.
Proof.
  intros Hk Hmin Hrep. unfold sensor_value.
  destruct (enough_entries self s readings_stack) eqn:E; [|eauto].
  apply apply_filter_defined; auto.
  - unfold enough_entries in E. apply Z.leb_le in E.
    intros Hnil. rewrite Hnil in E. simpl in E. lia.
  - now apply representable_sensor_readings.
Qed.

(** X8. With one of the filter methods mean, median, mode, max, min,
    [min_entries_per_sensor >= 1] and a window whose absolute RSSI values
    add up to less than [2^53], [process_reading] returns [None] or a
    fingerprint: it does not raise (a sensor that passes the entry test
    has a non-empty sample) and stays within the modelled arithmetic. *)
Theorem integer_filter_never_raises (self : SignalCaptureWindow) (t : float)
    (m : string) (r : Z) (agg : option Dict.t) :
  integer_filter (_filter_method self) = true ->
  (1 <= _min_entries_per_sensor self)%Z ->
  Filters.representable (map rssi (window_after_ingest self t m r)) = true ->
  exists res, snd (process_reading self t m r agg) = Ok res.
Proof.
  intros Hi Hmin Hrep.
  destruct (compose_loop_total (set_stack self [])
              (window_after_ingest self t m r)
              (_sensor_mac_list (set_stack self []))
              (fun s => sensor_value_defined (set_stack self []) _ s
                          Hi Hmin Hrep)
              Dict.empty) as [fp Hfp].
  destruct (process_reading_cases self t m r agg)
    as [[_ H]|[[_ [e [C _]]]|[[_ [fp' [_ H]]]|[_ [C _]]]]].
  - rewrite H. simpl. eauto.
  - exfalso. unfold compose_fingerprint_data in C.
    rewrite Hfp in C. discriminate C.
  - rewrite H. simpl. eauto.
  - exfalso. unfold compose_fingerprint_data in C.
    rewrite Hfp in C. discriminate C.
Qed.

Lemma integer_filter_never_raises_witness :
  let e := mkWindow ["A"; "B"] 1 10 1 1 "mode" 100
             [mkReading 0 "A" (-40); mkReading 0.5 "A" (-40)] in
  exists res, snd (process_reading e 1 "A" (-44) None) = Ok res.
Proof.
  intros e.
  apply (integer_filter_never_raises e 1 "A" (-44) None);
    [reflexivity | simpl; lia | reflexivity].
Defined.

(** ** Runs of calls *)

(** X9. The buffer never reorders, duplicates or invents readings: after
    any run of calls it is a suffix of the readings the object held at the
    start followed by the readings of the calls, in call order; on a
    fresh engine it is a suffix of the readings of the calls. *)
Theorem buffer_is_suffix_of_ingested (calls : list call)
    (self : SignalCaptureWindow) :
  (exists consumed,
      _readings_stack self ++ map reading_of_call calls
      = consumed ++ _readings_stack (run self calls)) /\
  (forall sensors minw maxw mine minv fm inv,
      exists consumed,
        map reading_of_call calls
        = consumed
          ++ _readings_stack (run (init sensors minw maxw mine minv fm inv)
                                  calls)).
Proof.
  split; [apply buffer_suffix_helper|].
  intros sensors minw maxw mine minv fm inv.
  apply (buffer_suffix_helper (init sensors minw maxw mine minv fm inv) calls).
Qed.

(** ** Readings of sensors that are not configured *)




(** ** The batch driver *)


Section Loop.

Variables th mh rh : string.
Variable heads : list string.





End Loop.






Lemma item_missing (rd : Dict.t) (k : string) :
  Dict.get k rd = None -> Dict.item rd k = Raise (KeyError k).
Proof. unfold Dict.item. now intros ->. Qed.

Lemma item_present (rd : Dict.t) (k : string) :
  Dict.get k rd <> None -> exists v, Dict.item rd k = Ok v.
Proof.
  unfold Dict.item. destruct (Dict.get k rd); [eauto|congruence].
Qed.



(** What a successful dictionary comprehension has written. *)
Lemma aggregate_of_ok (rd : Dict.t) (heads : list string) :
  forall acc a : Dict.t,
  aggregate_of rd heads acc = Ok a ->
  (forall h, In h heads ->
     exists v, Dict.get h rd = Some v /\ Dict.get h a = Some v) /\
  (forall k, ~ In k heads -> Dict.get k a = Dict.get k acc) /\
  (forall k, In k (Dict.keys a) <-> In k (Dict.keys acc) \/ In k heads) /\
  (NoDup (Dict.keys acc) -> NoDup (Dict.keys a)).
Proof.
  induction heads as [|h0 heads IH]; simpl; intros acc a H.
  - inversion H; subst. split; [intros h []|]. repeat split; tauto.
  - unfold Dict.item in H.
    destruct (Dict.get h0 rd) as [v0|] eqn:E0; simpl in H; [|discriminate].
    destruct (IH _ _ H) as [Hin [Hout [Hkeys Hnd]]].
    split; [|split; [|split]].
    + intros h [<-|Hh]; [|auto].
      destruct (in_dec string_dec h0 heads) as [Hi|Hni]; auto.
      exists v0. split; auto.
      rewrite (Hout _ Hni). apply DictFacts.get_set_same.
    + intros k Hk. rewrite Hout by tauto.
      apply DictFacts.get_set_other. intros ->. tauto.
    + intros k. rewrite Hkeys, DictFacts.keys_set. intuition.
    + intros Hacc. apply Hnd. now apply DictFacts.NoDup_set.
Qed.

Lemma aggregate_of_raise (rd : Dict.t) (h1 h2 : list string) (k : string) :
  (forall h, In h h1 -> Dict.get h rd <> None) ->
  Dict.get k rd = None ->
  forall acc, aggregate_of rd (h1 ++ k :: h2) acc = Raise (KeyError k).
Proof.
  intros Hall Hk. induction h1 as [|h0 h1 IH]; simpl; intros acc.
  - now rewrite (item_missing _ _ Hk).
  - destruct (item_present rd h0) as [v ->]; [apply Hall; now left|].
    simpl. apply IH. intros h Hh. apply Hall. now right.
Qed.

(** X16. The dictionary built from [aggregate_data_heads] has exactly the
    listed heads as keys, each once, with the values the reading has for
    them. *)
Theorem aggregate_copies_heads (rd : Dict.t) (heads : list string)
    (a : Dict.t) :
  aggregate_of rd heads Dict.empty = Ok a ->
  NoDup (Dict.keys a) /\
  (forall k, In k (Dict.keys a) <-> In k heads) /\
  (forall h, In h heads ->
     exists v, Dict.get h rd = Some v /\ Dict.get h a = Some v).
Proof.
  intros H. destruct (aggregate_of_ok _ _ _ _ H) as [Hin [_ [Hkeys Hnd]]].
  split; [apply Hnd; constructor|]. split; [|exact Hin].
  intros k. rewrite Hkeys. unfold Dict.empty. simpl. tauto.
Qed.

Lemma aggregate_copies_heads_witness :
  let rd := [("timestamp", VNum 3); ("room", VStr "lab"); ("rssi", VInt (-40));
             ("floor", VInt 2)] in
  let a := [("floor", VInt 2); ("room", VStr "lab")] in
  aggregate_of rd ["floor"; "room"; "floor"] Dict.empty = Ok a /\
  NoDup (Dict.keys a) /\
  (forall k, In k (Dict.keys a) <-> In k ["floor"; "room"; "floor"]).
Proof.
  intros rd a.
  assert (H : aggregate_of rd ["floor"; "room"; "floor"] Dict.empty = Ok a)
    by reflexivity.
  destruct (aggregate_copies_heads rd _ a H) as [H1 [H2 _]].
  repeat split; auto; apply H2.
Defined.

(** X17. A head of [aggregate_data_heads] that the reading lacks makes
    the comprehension raise [KeyError] on the first such head. *)
Theorem aggregate_raises_on_first_missing_head (rd : Dict.t)
    (h1 h2 : list string) (k : string) :
  (forall h, In h h1 -> Dict.get h rd <> None) ->
  Dict.get k rd = None ->
  aggregate_of rd (h1 ++ k :: h2) Dict.empty = Raise (KeyError k).
Proof.
  intros Hall Hk. now apply aggregate_of_raise.
Qed.

Lemma aggregate_raises_on_first_missing_head_witness :
  let rd := [("timestamp", VNum 3); ("room", VStr "lab")] in
  aggregate_of rd (["room"] ++ "floor" :: ["wing"]) Dict.empty
  = Raise (KeyError "floor").
Proof.
  intros rd.
  apply (aggregate_raises_on_first_missing_head rd ["room"] ["wing"] "floor").
  - intros h [<-|[]]. discriminate.
  - reflexivity.
Defined.





